(** * Site Kit data layer: core/ui store, fetch stores, store combination,
    resolver tracking and the effect interpreter.

    JavaScript values are modelled by [jsval]; plain objects keep their own
    properties as an association list in insertion order and inherit from
    [Object.prototype]. *)

From Stdlib Require Import String Ascii List Bool ZArith Lia Permutation.
From Stdlib Require Import OrdersEx.
Import ListNotations.
Open Scope string_scope.
Set Warnings "-register-all".

(** ** JavaScript values *)

Inductive jsval : Type :=
| JUndefined
| JNull
| JBool (b : bool)
| JNum (z : Z)
| JStr (s : string)
| JArr (l : list jsval)
| JObj (props : list (string * jsval))
| JFun (name : string).

(** Own properties of a plain object, in insertion order. *)
Definition jsobj := list (string * jsval).

Fixpoint own_lookup (o : jsobj) (k : string) : option jsval :=
  match o with
  | [] => None
  | (k', v) :: r => if String.eqb k k' then Some v else own_lookup r k
  end.

(** The data properties every plain object inherits from [Object.prototype]
    (all of them functions). *)
Definition object_prototype : jsobj :=
  [ ("constructor", JFun "Object");
    ("hasOwnProperty", JFun "Object.prototype.hasOwnProperty");
    ("isPrototypeOf", JFun "Object.prototype.isPrototypeOf");
    ("propertyIsEnumerable", JFun "Object.prototype.propertyIsEnumerable");
    ("toLocaleString", JFun "Object.prototype.toLocaleString");
    ("toString", JFun "Object.prototype.toString");
    ("valueOf", JFun "Object.prototype.valueOf");
    ("__defineGetter__", JFun "Object.prototype.__defineGetter__");
    ("__defineSetter__", JFun "Object.prototype.__defineSetter__");
    ("__lookupGetter__", JFun "Object.prototype.__lookupGetter__");
    ("__lookupSetter__", JFun "Object.prototype.__lookupSetter__") ].

(** [o[k]] on a plain object: own property first, then the prototype chain,
    [undefined] when neither has it. *)
Definition obj_get (o : jsobj) (k : string) : jsval :=
  match own_lookup o k with
  | Some v => v
  | None =>
      match own_lookup object_prototype k with
      | Some v => v
      | None => JUndefined
      end
  end.

(** CreateDataProperty on an object literal under construction: an existing
    key keeps its position and gets the new value, a new key is appended. *)
Fixpoint define_prop (o : jsobj) (k : string) (v : jsval) : jsobj :=
  match o with
  | [] => [(k, v)]
  | (k', v') :: r =>
      if String.eqb k k' then (k', v) :: r else (k', v') :: define_prop r k v
  end.

(** [{ ...a, ...b }]: the own properties of [b] defined over a copy of [a]. *)
Definition spread (a b : jsobj) : jsobj :=
  fold_left (fun acc '(k, v) => define_prop acc k v) b a.

(** JavaScript truthiness of a key argument (documented as a string). *)
Definition truthy_key (key : string) : bool := negb (String.eqb key "").

(** ** The [core/ui] store (SpinnerButton.js, lines 103-228) *)
Module CoreUI.

Definition SET_VALUES := "SET_VALUES".
Definition SET_VALUE := "SET_VALUE".

Definition initialState : jsobj :=
  [ ("useInViewResetCount", JNum 0); ("isOnline", JBool true) ].

(** The payload fields read by the reducer; a field the action does not
    carry destructures to [undefined] ([None]). *)
Record payload := mkPayload {
  p_values : option jsobj;
  p_key : option string;
  p_value : jsval
}.

Record action := mkAction { type_ : string; payload_ : payload }.

(** [setValues( values )]: the [isPlainObject] invariant holds for every
    [jsobj]. *)
Definition setValues (values : jsobj) : option action :=
  Some (mkAction SET_VALUES (mkPayload (Some values) None JUndefined)).

(** [setValue( key, value )]: [invariant( key )] throws ([None]) on a falsy
    key. *)
Definition setValue (key : string) (value : jsval) : option action :=
  if truthy_key key
  then Some (mkAction SET_VALUE (mkPayload None (Some key) value))
  else None.

(** A computed key [[ key ]] is converted to a property key; an absent key
    is [undefined], i.e. the property "undefined". *)
Definition property_key (k : option string) : string :=
  match k with Some s => s | None => "undefined" end.

Definition reducer (state : jsobj) (a : action) : jsobj :=
  if String.eqb (type_ a) SET_VALUES then
    match p_values (payload_ a) with
    | Some values => spread state values
    | None => spread state []
    end
  else if String.eqb (type_ a) SET_VALUE then
    define_prop (spread state []) (property_key (p_key (payload_ a)))
      (p_value (payload_ a))
  else state.

(** [getValue( state, key ) { return state[ key ]; }] *)
Definition getValue (state : jsobj) (key : string) : jsval := obj_get state key.


End CoreUI.

(** Modelled from the spec: canonical serialization of arguments, the serialization behind Resolution Keys
    (section 4.2: "same logical arguments, regardless of ordering of object
    keys, must serialize identically"; section 9: "recursively sorted-key
    JSON").  The resolver-tracking code is not among the sources. *)
Module Serialize.

Definition dq : string := String (Ascii.ascii_of_nat 34) EmptyString.

Fixpoint digits (fuel : nat) (n : N) (acc : string) : string :=
  match fuel with
  | O => acc
  | S f =>
      let acc' := String (Ascii.ascii_of_N (48 + N.modulo n 10)) acc in
      if (n <? 10)%N then acc' else digits f (N.div n 10) acc'
  end.

Definition show_N (n : N) : string :=
  digits (S (N.to_nat (N.log2 n))) n EmptyString.

Definition show_Z (z : Z) : string :=
  match z with
  | Zneg p => "-" ++ show_N (Npos p)
  | _ => show_N (Z.to_N z)
  end.

Definition key_ltb (a b : string) : bool :=
  match String_as_OT.compare a b with Lt => true | _ => false end.

(** Insertion sort of serialized members by key. *)
Fixpoint insert_by_key (p : string * string) (l : list (string * string))
  : list (string * string) :=
  match l with
  | [] => [p]
  | q :: r => if key_ltb (fst p) (fst q) then p :: q :: r
              else q :: insert_by_key p r
  end.

Fixpoint sort_by_key (l : list (string * string)) : list (string * string) :=
  match l with
  | [] => []
  | p :: r => insert_by_key p (sort_by_key r)
  end.

Definition render_member (m : string * string) : string :=
  dq ++ fst m ++ dq ++ ":" ++ snd m.

(** Modelled from the spec: the stable string of a value, object members
    sorted by key at every level. *)
Fixpoint serialize (v : jsval) : string :=
  match v with
  | JUndefined => "undefined"
  | JNull => "null"
  | JBool b => if b then "true" else "false"
  | JNum z => show_Z z
  | JStr s => dq ++ s ++ dq
  | JFun _ => "null"
  | JArr l =>
      "[" ++ String.concat ","
        ((fix go (l : list jsval) : list string :=
            match l with [] => [] | x :: r => serialize x :: go r end) l)
      ++ "]"
  | JObj ps =>
      "{" ++ String.concat ","
        (map render_member (sort_by_key
          ((fix go (ps : list (string * jsval)) : list (string * string) :=
              match ps with
              | [] => []
              | (k, x) :: r => (k, serialize x) :: go r
              end) ps)))
      ++ "}"
  end.

(** Object keys are distinct, as in every JavaScript object. *)
Fixpoint keys_distinct (ps : list (string * jsval)) : bool :=
  match ps with
  | [] => true
  | (k, _) :: r =>
      negb (existsb (fun m => String.eqb k (fst m)) r) && keys_distinct r
  end.

End Serialize.

(** Modelled from the spec: the Resolver Tracker of section 4.2 (states
    NOT_STARTED, IN_FLIGHT and FINISHED per Resolution Key, shared in-flight
    promise, explicit invalidation, retry after failure).  Promises are
    handles [nat] whose settlement is recorded in [t_settled]. *)
Module Tracker.

Definition rkey := (string * string * string)%type.

Definition resolution_key (storeKey selectorName : string) (args : list jsval)
  : rkey := (storeKey, selectorName, Serialize.serialize (JArr args)).

Definition rkey_eqb (a b : rkey) : bool :=
  match a, b with
  | (s1, n1, a1), (s2, n2, a2) =>
      String.eqb s1 s2 && String.eqb n1 n2 && String.eqb a1 a2
  end.

Inductive resolution_status := NOT_STARTED | IN_FLIGHT (p : nat) | FINISHED.

Inductive outcome := Fulfilled (v : jsval) | Rejected (e : jsval).

Record tracker := mkTracker {
  t_has_resolver : string -> string -> bool;  (* registered resolvers *)
  t_status : rkey -> resolution_status;
  t_runs : rkey -> nat;                       (* resolver executions started *)
  t_settled : nat -> option outcome;          (* promise settlements *)
  t_next : nat                                (* next fresh promise *)
}.

Definition upd {A} (f : rkey -> A) (k : rkey) (a : A) : rkey -> A :=
  fun k' => if rkey_eqb k k' then a else f k'.

Definition upd_nat {A} (f : nat -> A) (n : nat) (a : A) : nat -> A :=
  fun n' => if Nat.eqb n n' then a else f n'.

(** A fresh promise that is already resolved. *)
Definition resolved_now (t : tracker) : tracker * nat :=
  (mkTracker (t_has_resolver t) (t_status t) (t_runs t)
     (upd_nat (t_settled t) (t_next t) (Some (Fulfilled JUndefined)))
     (S (t_next t)), t_next t).

(** Modelled from the spec: [resolve( storeKey, selectorName, args )]; no
    resolver or FINISHED resolves at once, IN_FLIGHT shares the promise,
    NOT_STARTED starts the resolver. *)
Definition resolve (t : tracker) (storeKey selectorName : string)
  (args : list jsval) : tracker * nat :=
  let k := resolution_key storeKey selectorName args in
  if negb (t_has_resolver t storeKey selectorName) then resolved_now t
  else
    match t_status t k with
    | IN_FLIGHT p => (t, p)
    | FINISHED => resolved_now t
    | NOT_STARTED =>
        (mkTracker (t_has_resolver t) (upd (t_status t) k (IN_FLIGHT (t_next t)))
           (upd (t_runs t) k (S (t_runs t k))) (t_settled t) (S (t_next t)),
         t_next t)
    end.

(** The resolver coroutine started for [k] settles with [o]. *)
Definition complete (t : tracker) (k : rkey) (o : outcome) : tracker :=
  match t_status t k with
  | IN_FLIGHT p =>
      mkTracker (t_has_resolver t)
        (upd (t_status t) k
           (match o with Fulfilled _ => FINISHED | Rejected _ => NOT_STARTED end))
        (t_runs t) (upd_nat (t_settled t) p (Some o)) (t_next t)
  | _ => t
  end.

Definition invalidate (t : tracker) (k : rkey) : tracker :=
  match t_status t k with
  | FINISHED =>
      mkTracker (t_has_resolver t) (upd (t_status t) k NOT_STARTED)
        (t_runs t) (t_settled t) (t_next t)
  | _ => t
  end.

Inductive tracker_event :=
| TResolve (storeKey selectorName : string) (args : list jsval)
| TComplete (k : rkey) (o : outcome)
| TInvalidate (k : rkey).

(** Runs a sequence of events; returns the promise handed to each
    [resolve] caller, with the key it asked for. *)
Fixpoint run_events (t : tracker) (evs : list tracker_event)
  : tracker * list (rkey * nat) :=
  match evs with
  | [] => (t, [])
  | TResolve s n a :: r =>
      let '(t1, p) := resolve t s n a in
      let '(t2, hs) := run_events t1 r in
      (t2, (resolution_key s n a, p) :: hs)
  | TComplete k o :: r => run_events (complete t k o) r
  | TInvalidate k :: r => run_events (invalidate t k) r
  end.

(** [ev] settles the resolver started for [k]. *)
Definition completes (k : rkey) (ev : tracker_event) : bool :=
  match ev with TComplete k' _ => rkey_eqb k k' | _ => false end.

Definition empty_tracker (has_resolver : string -> string -> bool) : tracker :=
  mkTracker has_resolver (fun _ => NOT_STARTED) (fun _ => O) (fun _ => None) O.

End Tracker.

(** Modelled from the spec: the Fetch Store Factory, i.e. the fetch action generated by [createFetchStore]
    (create-fetch-store.js, imported by the custom-dimensions store but not
    among the sources), after section 4.5: validate the params synchronously
    (a throw rejects the dispatch before any network effect), mark
    [isFetching[key]], call [controlCallback( params )]; on success store
    [data[key]] and clear [isFetching]/[error]; on failure store [error[key]]
    and clear [isFetching].  What a failed fetch hands back to its dispatcher
    follows idea-state.test.js (lines 76-94): the dispatch resolves with
    [{ response: undefined, error }]. *)
Module FetchStore.

Record fetch_descriptor := mkDescriptor {
  baseName : string;
  argsToParams : list jsval -> jsval;
  validateParams : jsval -> option jsval  (* [Some err]: throws [err] *)
}.

Inductive network_outcome :=
| NetResolved (response : jsval)
| NetRejected (error : jsval).

(** Settlement of the promise returned by [dispatch]. *)
Inductive dispatch_result :=
| DispatchResolved (response : option jsval) (error : option jsval)
| DispatchRejected (error : jsval).

Record fetch_state := mkFetchState {
  fs_data : string -> option jsval;
  fs_isFetching : string -> bool;
  fs_error : string -> option jsval;
  fs_calls : list jsval;             (* params of each controlCallback call *)
  fs_pending : list (nat * string);  (* dispatches awaiting the network *)
  fs_results : nat -> option dispatch_result;
  fs_next : nat
}.

Definition supd {A} (f : string -> A) (k : string) (a : A) : string -> A :=
  fun k' => if String.eqb k k' then a else f k'.

Definition nupd {A} (f : nat -> A) (n : nat) (a : A) : nat -> A :=
  fun n' => if Nat.eqb n n' then a else f n'.

Definition empty_fetch_state : fetch_state :=
  mkFetchState (fun _ => None) (fun _ => false) (fun _ => None) [] []
    (fun _ => None) O.

Definition params_key (params : jsval) : string := Serialize.serialize params.

(** Modelled from the spec: dispatching [fetch<BaseName>( ...args )];
    returns the handle of the dispatch promise. *)
Definition dispatch_fetch (d : fetch_descriptor) (s : fetch_state)
  (args : list jsval) : fetch_state * nat :=
  let h := fs_next s in
  let params := argsToParams d args in
  match validateParams d params with
  | Some err =>
      (mkFetchState (fs_data s) (fs_isFetching s) (fs_error s) (fs_calls s)
         (fs_pending s) (nupd (fs_results s) h (Some (DispatchRejected err)))
         (S h), h)
  | None =>
      let key := params_key params in
      (mkFetchState (fs_data s) (supd (fs_isFetching s) key true) (fs_error s)
         (fs_calls s ++ [params])%list (fs_pending s ++ [(h, key)])%list
         (fs_results s) (S h), h)
  end.

Fixpoint pending_key (pending : list (nat * string)) (h : nat) : option string :=
  match pending with
  | [] => None
  | (h', key) :: r => if Nat.eqb h h' then Some key else pending_key r h
  end.

(** The promise of [controlCallback] for dispatch [h] settles with [o]. *)
Definition settle_fetch (s : fetch_state) (h : nat) (o : network_outcome)
  : fetch_state :=
  match pending_key (fs_pending s) h with
  | None => s
  | Some key =>
      let pending := filter (fun m => negb (Nat.eqb (fst m) h)) (fs_pending s) in
      match o with
      | NetResolved r =>
          mkFetchState (supd (fs_data s) key (Some r))
            (supd (fs_isFetching s) key false) (supd (fs_error s) key None)
            (fs_calls s) pending
            (nupd (fs_results s) h (Some (DispatchResolved (Some r) None)))
            (fs_next s)
      | NetRejected e =>
          mkFetchState (fs_data s) (supd (fs_isFetching s) key false)
            (supd (fs_error s) key (Some e)) (fs_calls s) pending
            (nupd (fs_results s) h (Some (DispatchResolved None (Some e))))
            (fs_next s)
      end
  end.

(** Handles of pending dispatches are below the next fresh handle. *)
Definition wf_pending (s : fetch_state) : bool :=
  forallb (fun m => Nat.ltb (fst m) (fs_next s)) (fs_pending s).

(** A stand-in for [isValidPropertyID] (utils/validation, not among the
    sources): a non-empty string of decimal digits. *)
Definition is_digit (c : ascii) : bool :=
  let n := Ascii.nat_of_ascii c in Nat.leb 48 n && Nat.leb n 57.

Fixpoint all_digits (s : string) : bool :=
  match s with
  | EmptyString => true
  | String c r => is_digit c && all_digits r
  end.

Definition isValidPropertyID (v : jsval) : bool :=
  match v with
  | JStr s => negb (String.eqb s "") && all_digits s
  | _ => false
  end.

(** [invariant( isValidPropertyID( propertyID ), ... )] on the params. *)
Definition validatePropertyID (params : jsval) : option jsval :=
  match params with
  | JObj ps =>
      if isValidPropertyID (obj_get ps "propertyID") then None
      else Some (JStr "A valid GA4 propertyID is required.")
  | _ => Some (JStr "A valid GA4 propertyID is required.")
  end.

(** [fetchSyncAvailableCustomDimensionsStore] (part_001, lines 82-98) with
    a given [validateParams]. *)
Definition syncAvailableCustomDimensions (validate : jsval -> option jsval)
  : fetch_descriptor :=
  mkDescriptor "syncAvailableCustomDimensions"
    (fun args => JObj [("propertyID", nth 0 args JUndefined)]) validate.

End FetchStore.

(** Modelled from the spec: the Store Combinator [combine] of section 4.4 (the combining code,
    [Data.combineStores], is not among the sources).  Maps are association
    lists from names to values; a reducer is its table of action-type cases;
    function values are named by opaque identifiers. *)
Module Combine.

Record partial_store := mkPartial {
  ps_initialState : list (string * jsval);
  ps_reducer : list (string * nat);
  ps_actions : list (string * nat);
  ps_controls : list (string * nat);
  ps_selectors : list (string * nat);
  ps_resolvers : list (string * nat)
}.

Inductive field := InitialState | Reducer | Actions | Controls | Selectors | Resolvers.

Definition field_keys (f : field) (p : partial_store) : list string :=
  match f with
  | InitialState => map fst (ps_initialState p)
  | Reducer => map fst (ps_reducer p)
  | Actions => map fst (ps_actions p)
  | Controls => map fst (ps_controls p)
  | Selectors => map fst (ps_selectors p)
  | Resolvers => map fst (ps_resolvers p)
  end.

Inductive combine_error := KeyCollisionError (f : field) (key : string).

Inductive result (A : Type) := Ok (a : A) | Err (e : combine_error).
Arguments Ok {A} a.
Arguments Err {A} e.

Definition merge_field {A} (f : field) (m1 m2 : list (string * A))
  : result (list (string * A)) :=
  match List.find (fun k => List.existsb (String.eqb k) (List.map fst m1))
          (List.map fst m2) with
  | Some k => Err (KeyCollisionError f k)
  | None => Ok (m1 ++ m2)%list
  end.

Definition bind {A B} (r : result A) (k : A -> result B) : result B :=
  match r with Ok a => k a | Err e => Err e end.

Definition merge (acc p : partial_store) : result partial_store :=
  bind (merge_field InitialState (ps_initialState acc) (ps_initialState p)) (fun i =>
  bind (merge_field Reducer (ps_reducer acc) (ps_reducer p)) (fun r =>
  bind (merge_field Actions (ps_actions acc) (ps_actions p)) (fun a =>
  bind (merge_field Controls (ps_controls acc) (ps_controls p)) (fun c =>
  bind (merge_field Selectors (ps_selectors acc) (ps_selectors p)) (fun s =>
  bind (merge_field Resolvers (ps_resolvers acc) (ps_resolvers p)) (fun v =>
  Ok (mkPartial i r a c s v))))))).

Fixpoint combine_from (acc : result partial_store) (ps : list partial_store)
  : result partial_store :=
  match ps with
  | [] => acc
  | p :: r => combine_from (bind acc (fun a => merge a p)) r
  end.

Definition empty_partial : partial_store := mkPartial [] [] [] [] [] [].

(** Modelled from the spec: [combine( ...partialDefinitions )]. *)
Definition combine (ps : list partial_store) : result partial_store :=
  combine_from (Ok empty_partial) ps.

End Combine.

(** Modelled from the spec: the Effect Interpreter [run( coroutine )] of section 4.1.  A coroutine
    either returns or yields an Effect Descriptor and continues with the
    outcome fed back to it (a rejection is re-thrown at the yield point).
    The control handlers act on a world [W]; the log records when each
    handler is started and when its result is fed back. *)
Module Interpreter.

Import Tracker.

Inductive effect :=
| GET_REGISTRY
| SELECT (storeKey selectorName : string) (args : list jsval)
| DISPATCH (storeKey actionName : string) (args : list jsval)
| AWAIT (promise : nat)
| RESOLVE_SELECT (storeKey selectorName : string) (args : list jsval)
| UNKNOWN_EFFECT (tag : string).

Inductive coroutine :=
| Return (r : outcome)
| Yield (e : effect) (k : outcome -> coroutine).

Inductive event :=
| Dispatched (e : effect)
| Completed (e : effect) (o : outcome).

Section Run.

Variable W : Type.
Variable control : W -> effect -> W * outcome.

Definition handle (w : W) (e : effect) : W * outcome :=
  match e with
  | UNKNOWN_EFFECT _ => (w, Rejected (JStr "UnknownEffectError"))
  | _ => control w e
  end.

(** Modelled from the spec: the driver loop, bounded by [fuel]. *)
Fixpoint run (fuel : nat) (w : W) (c : coroutine)
  : W * list event * option outcome :=
  match fuel with
  | O => (w, [], None)
  | S f =>
      match c with
      | Return r => (w, [], Some r)
      | Yield e k =>
          let '(w1, o) := handle w e in
          let '(w2, log, res) := run f w1 (k o) in
          (w2, Dispatched e :: Completed e o :: log, res)
      end
  end.

(** The handlers of [steps] applied one after the other from [w] to [w']. *)
Inductive handled_in_order : W -> list (effect * outcome) -> W -> Prop :=
| hio_nil w : handled_in_order w [] w
| hio_cons w e o w1 rest w2 :
    handle w e = (w1, o) -> handled_in_order w1 rest w2 ->
    handled_in_order w ((e, o) :: rest) w2.

End Run.

(** The effects a coroutine yields when resumed with [os], in order. *)
Fixpoint replay (c : coroutine) (os : list outcome) {struct os} : list effect :=
  match os with
  | [] => []
  | o :: os' =>
      match c with Yield e k => e :: replay (k o) os' | Return _ => [] end
  end.

(** The coroutine after being resumed with [os], in order. *)
Fixpoint resume (c : coroutine) (os : list outcome) {struct os} : coroutine :=
  match os with
  | [] => c
  | o :: os' =>
      match c with Yield e k => resume (k o) os' | Return _ => c end
  end.

(** One handler start followed by its completion, per step. *)
Definition log_of (steps : list (effect * outcome)) : list event :=
  flat_map (fun '(e, o) => [Dispatched e; Completed e o]) steps.

End Interpreter.

(** ** core/ui: [resetInViewHook] (SpinnerButton.js, lines 120-131) *)
Module CoreUIActions.




End CoreUIActions.

(** ** The [SpinnerButton] component (SpinnerButton.js, lines 29-64) *)
Module SpinnerButton.

Inductive element :=
| CircularProgress (size : Z)
| Element (name : string).

(** The props; [None] is an absent (undefined) prop.  [rest_icon] and
    [rest_trailingIcon] are [icon] / [trailingIcon] when the caller passes
    them (they then land in [restProps]); [Some None] is an explicit
    [undefined]. *)
Record props := mkProps {
  className : option string;
  onClick : option string;
  isSaving : option bool;
  spinnerOnLeft : option bool;
  rest_icon : option (option element);
  rest_trailingIcon : option (option element)
}.

(** The props handed to [Button]. *)
Record button_props := mkButton {
  b_className : string;
  b_icon : option element;
  b_trailingIcon : option element;
  b_onClick : string
}.

Definition SPINNER := "googlesitekit-button-icon--spinner".
Definition RUNNING := "googlesitekit-button-icon--spinner__running".
Definition LEFT := "googlesitekit-button-icon--spinner__left".
Definition RIGHT := "googlesitekit-button-icon--spinner__right".

(** [classnames]: a string argument is kept when it is non-empty, an object
    argument contributes its keys whose values are truthy, in order. *)
Definition classnames_string (s : option string) : list string :=
  match s with
  | Some c => if String.eqb c "" then [] else [c]
  | None => []
  end.

Definition classnames_object (o : list (string * bool)) : list string :=
  map fst (filter snd o).

Definition default_bool (b : option bool) : bool :=
  match b with Some x => x | None => false end.

Definition class_tokens (p : props) : list string :=
  let saving := default_bool (isSaving p) in
  let left := default_bool (spinnerOnLeft p) in
  (classnames_string (className p) ++ classnames_string (Some SPINNER)
   ++ classnames_object [(RUNNING, saving); (LEFT, left); (RIGHT, negb left)])%list.

(** [<Button className=... icon=... trailingIcon=... onClick=...
    { ...restProps } />]: props from [restProps] come last and win. *)
Definition render (p : props) : button_props :=
  let saving := default_bool (isSaving p) in
  let left := default_bool (spinnerOnLeft p) in
  let icon := if left && saving then Some (CircularProgress 14) else None in
  let trailing :=
    if negb left && saving then Some (CircularProgress 14) else None in
  mkButton (String.concat " " (class_tokens p))
    (match rest_icon p with Some v => v | None => icon end)
    (match rest_trailingIcon p with Some v => v | None => trailing end)
    (match onClick p with Some f => f | None => "() => {}" end).

End SpinnerButton.

(** ** The custom-dimensions store (part_001) *)
Module CustomDimensions.

Definition customDimensionFields : list string :=
  [ "parameterName"; "displayName"; "description"; "scope";
    "disallowAdsPersonalization" ].

Definition isPlainObject (v : jsval) : bool :=
  match v with JObj _ => true | _ => false end.

Definition invalid_key_message (key : string) : string :=
  "Custom dimension must contain only valid keys. Invalid key: "
  ++ Serialize.dq ++ key ++ Serialize.dq.

(** [Object.keys( customDimension ).forEach( ... invariant( ... ) )]: the
    first key outside [customDimensionFields] throws.  The keys come in the
    order of the [jsobj]; the model does not move array-index keys to the
    front as [Object.keys] does. *)
Fixpoint check_keys (keys : list string) : option string :=
  match keys with
  | [] => None
  | k :: r =>
      if existsb (String.eqb k) customDimensionFields then check_keys r
      else Some (invalid_key_message k)
  end.

(** [validateParams] of [fetchCreateCustomDimensionStore] (lines 64-79);
    [isValidPropertyID] (utils/validation, not among the sources) is a
    parameter.  [Some msg]: the invariant that throws, with its message. *)
Definition validateCreateCustomDimension (isValidPropertyID : jsval -> bool)
  (params : jsobj) : option string :=
  let propertyID := obj_get params "propertyID" in
  let customDimension := obj_get params "customDimension" in
  if negb (isValidPropertyID propertyID)
  then Some "A valid GA4 propertyID is required."
  else
    match customDimension with
    | JObj ps => check_keys (map fst ps)
    | _ => Some "Custom dimension must be a plain object."
    end.

(** [argsToParams( propertyID, customDimension )] (lines 60-63). *)
Definition createCustomDimension_params (propertyID customDimension : jsval)
  : jsobj :=
  [("propertyID", propertyID); ("customDimension", customDimension)].

(** [hasCustomDimensions( state, customDimensions )] (lines 242-263), with
    the value of [getAvailableCustomDimensions()]: [None] for [null] or
    [undefined], [Some names] for an array of dimension names. *)
Definition hasCustomDimensions (available : option (list string))
  (customDimensions : jsval) : bool :=
  let dimensionsToCheck :=
    match customDimensions with JArr l => l | v => [v] end in
  match available with
  | None => false
  | Some av =>
      forallb (fun d => match d with
                        | JStr s => existsb (String.eqb s) av
                        | _ => false
                        end) dimensionsToCheck
  end.

(** [[ ...new Set( l ) ]]: first occurrences, in order. *)
Fixpoint dedupe_from (seen : list string) (l : list string) : list string :=
  match l with
  | [] => []
  | x :: r =>
      if existsb (String.eqb x) seen then dedupe_from seen r
      else x :: dedupe_from (x :: seen) r
  end.

Definition dedupe (l : list string) : list string := dedupe_from [] l.

(** The dimensions [createCustomDimensions] (lines 103-175) creates, in
    order.  [widgets t] is [KEY_METRICS_WIDGETS[ t ]?.requiredCustomDimensions]
    ([None] when the tile or the field is absent, read as [[]]);
    [possible d] is [possibleCustomDimensions[ d ]]; [available] is
    [getAvailableCustomDimensions()], and [None] ([null]/[undefined]) makes
    [availableCustomDimensions.includes] throw before anything is created. *)
Definition dimensions_to_create (widgets : string -> option (list string))
  (possible : string -> option jsval) (selectedMetricTiles : list string)
  (available : option (list string)) : option (list string) :=
  match available with
  | None => None
  | Some av =>
      let required :=
        flat_map (fun t => match widgets t with Some l => l | None => [] end)
          selectedMetricTiles in
      let missing :=
        filter (fun d => negb (existsb (String.eqb d) av)) (dedupe required) in
      Some (filter (fun d => match possible d with Some _ => true | None => false end)
              missing)
  end.

(** The [fetchCreateCustomDimension( propertyID, dimensionData )] calls. *)
Definition create_calls (widgets : string -> option (list string))
  (possible : string -> option jsval) (selectedMetricTiles : list string)
  (available : option (list string)) (propertyID : jsval)
  : option (list (jsval * jsval)) :=
  match dimensions_to_create widgets possible selectedMetricTiles available with
  | None => None
  | Some ds =>
      Some (map (fun d => (propertyID,
                           match possible d with Some x => x | None => JUndefined end))
              ds)
  end.

End CustomDimensions.

(** * Proofs *)

(** ** Objects *)

Lemma own_lookup_define_same (o : jsobj) (k : string) (v : jsval) :
  own_lookup (define_prop o k v) k = Some v.
Proof.
  induction o as [|[k' v'] r IH]; simpl.
  - rewrite String.eqb_refl. reflexivity.
  - destruct (String.eqb k k') eqn:E; simpl.
    + rewrite E. reflexivity.
    + rewrite E. exact IH.
Qed.

Lemma own_lookup_define_other (o : jsobj) (k k' : string) (v : jsval) :
  k' <> k -> own_lookup (define_prop o k v) k' = own_lookup o k'.
Proof.
  intros Hne. induction o as [|[k0 v0] r IH]; simpl.
  - apply String.eqb_neq in Hne. rewrite Hne. reflexivity.
  - destruct (String.eqb k k0) eqn:E; simpl.
    + apply String.eqb_eq in E. subst k0.
      apply String.eqb_neq in Hne. rewrite Hne. reflexivity.
    + rewrite IH. reflexivity.
Qed.

Lemma obj_get_define_same (o : jsobj) (k : string) (v : jsval) :
  obj_get (define_prop o k v) k = v.
Proof. unfold obj_get. rewrite own_lookup_define_same. reflexivity. Qed.

Lemma obj_get_define_other (o : jsobj) (k k' : string) (v : jsval) :
  k' <> k -> obj_get (define_prop o k v) k' = obj_get o k'.
Proof. intros Hne. unfold obj_get. rewrite own_lookup_define_other; auto. Qed.

(** ** core/ui store *)

(** Set-then-get: the value stored by [setValue( key, value )] is the one
    [getValue( state, key )] returns. *)
Lemma core_ui_set_then_get (state : jsobj) (key : string) (value : jsval)
  (a : CoreUI.action) :
  CoreUI.setValue key value = Some a ->
  CoreUI.getValue (CoreUI.reducer state a) key = value.
Proof.
  unfold CoreUI.setValue. destruct (truthy_key key); [|discriminate].
  intros H. injection H as <-.
  unfold CoreUI.reducer. simpl.
  apply obj_get_define_same.
Qed.

(** C9 (code_bug): [getValue] is documented to return [undefined] for a
    key that is not found, yet for the key "toString", never set and absent
    from [initialState], it returns the function inherited from
    [Object.prototype]; the set-then-get half of the claim holds
    ([core_ui_set_then_get]). *)
Theorem core_ui_getValue_unset_inherited :
  CoreUI.getValue CoreUI.initialState "toString"
  = JFun "Object.prototype.toString"
  /\ own_lookup CoreUI.initialState "toString" = None.
Proof. split; reflexivity. Qed.

(** C10: a SET_VALUE action changes at most the key named in its payload:
    every other key reads the same before and after the reducer. *)
Theorem core_ui_set_value_frame (state : jsobj) (a : CoreUI.action)
  (k' : string) :
  CoreUI.type_ a = CoreUI.SET_VALUE ->
  k' <> CoreUI.property_key (CoreUI.p_key (CoreUI.payload_ a)) ->
  CoreUI.getValue (CoreUI.reducer state a) k' = CoreUI.getValue state k'.
Proof.
  intros Htype Hne. unfold CoreUI.reducer, CoreUI.getValue.
  rewrite Htype. simpl.
  apply obj_get_define_other. exact Hne.
Qed.

Lemma core_ui_set_value_frame_witness :
  CoreUI.type_ (CoreUI.mkAction CoreUI.SET_VALUE
    (CoreUI.mkPayload None (Some "isOnline") (JBool false))) = CoreUI.SET_VALUE
  /\ CoreUI.getValue (CoreUI.reducer CoreUI.initialState
       (CoreUI.mkAction CoreUI.SET_VALUE
          (CoreUI.mkPayload None (Some "isOnline") (JBool false))))
       "useInViewResetCount"
     = CoreUI.getValue CoreUI.initialState "useInViewResetCount".
Proof.
  split; [reflexivity|].
  apply core_ui_set_value_frame; [reflexivity|].
  simpl. discriminate.
Defined.

(** ** Serialization *)

Module SerializeProofs.

Import Serialize.

Lemma key_ltb_spec (a b : string) :
  key_ltb a b = true <-> String_as_OT.lt a b.
Proof.
  unfold key_ltb, String_as_OT.lt.
  destruct (String_as_OT.compare a b); split; congruence.
Qed.

Lemma key_ltb_asym (a b : string) :
  key_ltb a b = true -> key_ltb b a = false.
Proof.
  intros H. apply key_ltb_spec in H.
  destruct (key_ltb b a) eqn:E; [|reflexivity].
  apply key_ltb_spec in E. exfalso.
  destruct String_as_OT.lt_strorder as [Hirr Htr].
  apply (Hirr a). apply (Htr a b a); assumption.
Qed.

Lemma key_ltb_total (a b : string) :
  a <> b -> key_ltb a b = true \/ key_ltb b a = true.
Proof.
  intros Hne. rewrite !key_ltb_spec.
  destruct (String_as_OT.compare_spec a b); auto. contradiction.
Qed.

Lemma key_ltb_trans (a b c : string) :
  key_ltb a b = true -> key_ltb b c = true -> key_ltb a c = true.
Proof.
  rewrite !key_ltb_spec. intros H1 H2.
  destruct String_as_OT.lt_strorder as [_ Htr]. apply (Htr a b c); assumption.
Qed.

Lemma insert_by_key_comm (p q : string * string) (l : list (string * string)) :
  fst p <> fst q ->
  insert_by_key p (insert_by_key q l) = insert_by_key q (insert_by_key p l).
Proof.
  intros Hne.
  assert (Hpq : key_ltb (fst p) (fst q) = true /\ key_ltb (fst q) (fst p) = false
             \/ key_ltb (fst p) (fst q) = false /\ key_ltb (fst q) (fst p) = true).
  { destruct (key_ltb_total _ _ Hne) as [H|H].
    - left. split; auto. apply key_ltb_asym; auto.
    - right. split; auto. apply key_ltb_asym; auto. }
  induction l as [|c r IH]; simpl.
  - destruct Hpq as [[H1 H2]|[H1 H2]]; rewrite H1, H2; reflexivity.
  - destruct (key_ltb (fst q) (fst c)) eqn:Eq, (key_ltb (fst p) (fst c)) eqn:Ep;
      simpl.
    + destruct Hpq as [[H1 H2]|[H1 H2]]; rewrite ?H1, ?H2, ?Eq, ?Ep; reflexivity.
    + destruct Hpq as [[H1 H2]|[H1 H2]].
      * exfalso. rewrite (key_ltb_trans _ _ _ H1 Eq) in Ep. discriminate.
      * rewrite H1, Ep, Eq. reflexivity.
    + destruct Hpq as [[H1 H2]|[H1 H2]].
      * rewrite H2, Eq, Ep. reflexivity.
      * exfalso. rewrite (key_ltb_trans _ _ _ H2 Ep) in Eq. discriminate.
    + rewrite Eq, Ep, IH. reflexivity.
Qed.

Lemma sort_by_key_perm (l l' : list (string * string)) :
  Permutation l l' -> NoDup (map fst l) -> sort_by_key l = sort_by_key l'.
Proof.
  induction 1 as [|x l l' Hp IH|x y l|l l' l'' H1 IH1 H2 IH2]; intros Hnd.
  - reflexivity.
  - simpl in *. inversion Hnd; subst. rewrite IH; auto.
  - simpl in *. inversion Hnd as [|? ? Hy Hnd1]; subst.
    inversion Hnd1 as [|? ? Hx Hnd2]; subst.
    apply insert_by_key_comm. intros E. apply Hy. rewrite E. left. reflexivity.
  - rewrite IH1 by exact Hnd. apply IH2.
    eapply Permutation_NoDup; [|exact Hnd]. apply Permutation_map. exact H1.
Qed.

Definition serialize_member (m : string * jsval) : string * string :=
  (fst m, serialize (snd m)).

Lemma serialize_obj (ps : list (string * jsval)) :
  serialize (JObj ps)
  = "{" ++ String.concat "," (map render_member
             (sort_by_key (map serialize_member ps))) ++ "}".
Proof.
  simpl. do 4 f_equal.
  induction ps as [|[k x] r IH]; simpl; [reflexivity|].
  f_equal. exact IH.
Qed.

Lemma serialize_arr (l : list jsval) :
  serialize (JArr l) = "[" ++ String.concat "," (map serialize l) ++ "]".
Proof. reflexivity. Qed.

Lemma keys_distinct_NoDup (ps : list (string * jsval)) :
  keys_distinct ps = true -> NoDup (map fst ps).
Proof.
  induction ps as [|[k x] r IH]; simpl; intros H; constructor.
  - apply andb_prop in H as [H _]. apply negb_true_iff in H.
    intros Hin. apply in_map_iff in Hin as [[k' x'] [Ek Hin]]. simpl in Ek.
    subst k'. assert (existsb (fun m => String.eqb k (fst m)) r = true).
    { apply existsb_exists. exists (k, x'). split; auto. apply String.eqb_refl. }
    congruence.
  - apply andb_prop in H as [_ H]. auto.
Qed.

End SerializeProofs.

(** C5: two argument objects with the same key/value pairs in a different
    key insertion order give the same Resolution Key, wherever they occur in
    the argument tuple. *)
Theorem resolution_key_order_invariant (storeKey selectorName : string)
  (pre post : list jsval) (ps ps' : list (string * jsval)) :
  Permutation ps ps' ->
  Serialize.keys_distinct ps = true ->
  Tracker.resolution_key storeKey selectorName (pre ++ JObj ps :: post)
  = Tracker.resolution_key storeKey selectorName (pre ++ JObj ps' :: post).
Proof.
  intros Hp Hd. unfold Tracker.resolution_key.
  rewrite !SerializeProofs.serialize_arr, !map_app. cbn [map].
  rewrite !SerializeProofs.serialize_obj.
  rewrite (SerializeProofs.sort_by_key_perm
             (map SerializeProofs.serialize_member ps)
             (map SerializeProofs.serialize_member ps')).
  - reflexivity.
  - apply Permutation_map. exact Hp.
  - rewrite map_map. simpl. apply SerializeProofs.keys_distinct_NoDup. exact Hd.
Qed.

Lemma resolution_key_order_invariant_witness :
  Tracker.resolution_key "modules/analytics-4" "getReport"
    ([] ++ JObj [("startDate", JStr "2023-01-01"); ("limit", JNum 10)] :: [])
  = Tracker.resolution_key "modules/analytics-4" "getReport"
    ([] ++ JObj [("limit", JNum 10); ("startDate", JStr "2023-01-01")] :: []).
Proof.
  apply resolution_key_order_invariant; [apply perm_swap | reflexivity].
Defined.

(** ** Resolver Tracker *)

Module TrackerProofs.

Import Tracker.

Lemma rkey_eqb_eq (a b : rkey) : rkey_eqb a b = true <-> a = b.
Proof.
  destruct a as [[s1 n1] a1], b as [[s2 n2] a2]; simpl.
  rewrite !andb_true_iff, !String.eqb_eq. split.
  - intros [[-> ->] ->]. reflexivity.
  - intros H. injection H as -> -> ->. auto.
Qed.

Lemma rkey_eqb_neq (a b : rkey) : a <> b -> rkey_eqb a b = false.
Proof.
  intros H. destruct (rkey_eqb a b) eqn:E; [|reflexivity].
  apply rkey_eqb_eq in E. contradiction.
Qed.

Lemma upd_eq {A} (f : rkey -> A) (k : rkey) (x : A) : upd f k x k = x.
Proof.
  unfold upd. replace (rkey_eqb k k) with true; [reflexivity|].
  symmetry. apply rkey_eqb_eq. reflexivity.
Qed.

Lemma upd_neq {A} (f : rkey -> A) (k k' : rkey) (x : A) :
  k <> k' -> upd f k x k' = f k'.
Proof. intros H. unfold upd. rewrite rkey_eqb_neq; auto. Qed.

Lemma upd_nat_eq {A} (f : nat -> A) (n : nat) (x : A) : upd_nat f n x n = x.
Proof. unfold upd_nat. rewrite Nat.eqb_refl. reflexivity. Qed.

(** What [resolve], [complete] and [invalidate] leave alone at a key. *)
Definition same_at (k : rkey) (t t' : tracker) : Prop :=
  t_has_resolver t' = t_has_resolver t /\ t_status t' k = t_status t k
  /\ t_runs t' k = t_runs t k.

Lemma resolve_other (t : tracker) s n a (k : rkey) :
  resolution_key s n a <> k -> same_at k t (fst (resolve t s n a)).
Proof.
  intros Hne. unfold resolve, resolved_now, same_at.
  destruct (negb (t_has_resolver t s n)); [simpl; auto|].
  destruct (t_status t (resolution_key s n a)); simpl; auto.
  rewrite !upd_neq by exact Hne. auto.
Qed.

Lemma resolve_in_flight (t : tracker) s n a (p : nat) :
  t_has_resolver t s n = true ->
  t_status t (resolution_key s n a) = IN_FLIGHT p ->
  resolve t s n a = (t, p).
Proof.
  intros Hr Hs. unfold resolve. rewrite Hr, Hs. reflexivity.
Qed.

Lemma complete_other (t : tracker) (k k' : rkey) (o : outcome) :
  k' <> k -> same_at k t (complete t k' o).
Proof.
  intros Hne. unfold complete, same_at.
  destruct (t_status t k'); simpl; auto.
  rewrite upd_neq by exact Hne. auto.
Qed.

Lemma invalidate_same_at (t : tracker) (k k' : rkey) (p : nat) :
  t_status t k = IN_FLIGHT p -> same_at k t (invalidate t k').
Proof.
  intros Hs. unfold invalidate, same_at.
  destruct (t_status t k') eqn:E; simpl; auto.
  assert (k' <> k) by (intros ->; congruence).
  rewrite upd_neq by assumption. auto.
Qed.

(** While no completion for [k] occurs, [k] stays in flight on the same
    promise, no new resolver run starts for it, and every caller asking for
    [k] is handed that promise. *)
Lemma in_flight_stable (evs : list tracker_event) :
  forall (t : tracker) (k : rkey) (p : nat),
    t_has_resolver t (fst (fst k)) (snd (fst k)) = true ->
    t_status t k = IN_FLIGHT p ->
    forallb (fun ev => negb (completes k ev)) evs = true ->
    same_at k t (fst (run_events t evs))
    /\ forall h, In (k, h) (snd (run_events t evs)) -> h = p.
Proof.
  induction evs as [|ev r IH]; intros t k p Hr Hs Hc.
  - simpl. unfold same_at. repeat split; auto. intros h [].
  - simpl in Hc. apply andb_prop in Hc as [Hc1 Hc].
    destruct ev as [s n a|k' o|k'].
    + simpl.
      destruct (rkey_eqb (resolution_key s n a) k) eqn:Ek.
      * apply rkey_eqb_eq in Ek. subst k. simpl in Hr.
        rewrite (resolve_in_flight t s n a p Hr Hs).
        destruct (run_events t r) as [t2 hs] eqn:Er.
        specialize (IH t (resolution_key s n a) p Hr Hs Hc).
        rewrite Er in IH. simpl in *. destruct IH as [IHs IHh].
        split; [exact IHs|]. intros h [H|H]; [congruence|auto].
      * assert (Hne : resolution_key s n a <> k).
        { intros E. apply rkey_eqb_eq in E. congruence. }
        pose proof (resolve_other t s n a k Hne) as [Hr1 [Hs1 Hn1]].
        destruct (resolve t s n a) as [t1 q] eqn:E1. simpl in Hr1, Hs1, Hn1.
        assert (Hr1' : t_has_resolver t1 (fst (fst k)) (snd (fst k)) = true)
          by (rewrite Hr1; exact Hr).
        specialize (IH t1 k p Hr1' (eq_trans Hs1 Hs) Hc).
        destruct (run_events t1 r) as [t2 hs] eqn:Er. simpl in *.
        destruct IH as [[IHr [IHs IHn]] IHh].
        split.
        -- unfold same_at. repeat split; congruence.
        -- intros h [H|H]; [|auto]. injection H as Hk. congruence.
    + simpl. simpl in Hc1.
      assert (Hne : k' <> k).
      { intros ->. rewrite (proj2 (rkey_eqb_eq k k) eq_refl) in Hc1.
        discriminate. }
      pose proof (complete_other t k k' o Hne) as [Hr1 [Hs1 Hn1]].
      assert (Hr1' : t_has_resolver (complete t k' o) (fst (fst k))
                       (snd (fst k)) = true) by (rewrite Hr1; exact Hr).
      specialize (IH _ k p Hr1' (eq_trans Hs1 Hs) Hc) as [[IHr [IHs IHn]] IHh].
      split; [unfold same_at; repeat split; congruence | exact IHh].
    + simpl.
      pose proof (invalidate_same_at t k k' p Hs) as [Hr1 [Hs1 Hn1]].
      assert (Hr1' : t_has_resolver (invalidate t k') (fst (fst k))
                       (snd (fst k)) = true) by (rewrite Hr1; exact Hr).
      specialize (IH _ k p Hr1' (eq_trans Hs1 Hs) Hc) as [[IHr [IHs IHn]] IHh].
      split; [unfold same_at; repeat split; congruence | exact IHh].
Qed.

End TrackerProofs.

(** C1: when [resolve] is called for a Resolution Key that has a resolver
    and has not started, and then any further events happen before that
    resolver completes (other keys, invalidation, more [resolve] calls for
    the same key), the resolver has been started exactly once, every caller
    that asked for the key holds the one in-flight promise, and when the run
    settles all of them observe its outcome. *)
Theorem resolve_at_most_once_in_flight (t : Tracker.tracker)
  (storeKey selectorName : string) (args : list jsval)
  (evs : list Tracker.tracker_event) :
  Tracker.t_has_resolver t storeKey selectorName = true ->
  Tracker.t_status t (Tracker.resolution_key storeKey selectorName args)
    = Tracker.NOT_STARTED ->
  forallb (fun ev => negb (Tracker.completes
             (Tracker.resolution_key storeKey selectorName args) ev)) evs = true ->
  let k := Tracker.resolution_key storeKey selectorName args in
  let r := Tracker.run_events t (Tracker.TResolve storeKey selectorName args :: evs) in
  Tracker.t_runs (fst r) k = S (Tracker.t_runs t k)
  /\ exists p,
       Tracker.t_status (fst r) k = Tracker.IN_FLIGHT p
       /\ (forall h, In (k, h) (snd r) -> h = p)
       /\ (forall o, Tracker.t_settled (Tracker.complete (fst r) k o) p = Some o).
Proof.
  intros Hr Hs Hc k r.
  set (t1 := fst (Tracker.resolve t storeKey selectorName args)).
  set (p := Tracker.t_next t).
  assert (E1 : Tracker.resolve t storeKey selectorName args = (t1, p)).
  { unfold t1, p, Tracker.resolve. rewrite Hr, Hs. reflexivity. }
  assert (Hr1 : Tracker.t_has_resolver t1 (fst (fst k)) (snd (fst k)) = true).
  { unfold t1, Tracker.resolve. rewrite Hr, Hs. exact Hr. }
  assert (Hs1 : Tracker.t_status t1 k = Tracker.IN_FLIGHT p).
  { unfold t1, Tracker.resolve. rewrite Hr, Hs. simpl.
    apply TrackerProofs.upd_eq. }
  assert (Hn1 : Tracker.t_runs t1 k = S (Tracker.t_runs t k)).
  { unfold t1, Tracker.resolve. rewrite Hr, Hs. simpl.
    apply TrackerProofs.upd_eq. }
  destruct (TrackerProofs.in_flight_stable evs t1 k p Hr1 Hs1 Hc)
    as [[_ [Hs2 Hn2]] Hh].
  unfold r. simpl. rewrite E1.
  destruct (Tracker.run_events t1 evs) as [t2 hs] eqn:E2. simpl in *.
  split; [congruence|].
  exists p. split; [congruence|]. split.
  - intros h [H|H]; [injection H as <-; reflexivity | auto].
  - intros o. unfold Tracker.complete. rewrite Hs2, Hs1. simpl.
    apply TrackerProofs.upd_nat_eq.
Qed.

Lemma resolve_at_most_once_in_flight_witness :
  let t := Tracker.empty_tracker (fun _ _ => true) in
  let k := Tracker.resolution_key "core/user" "getCapabilities" [] in
  let r := Tracker.run_events t
             [Tracker.TResolve "core/user" "getCapabilities" [];
              Tracker.TResolve "core/site" "getSiteInfo" [];
              Tracker.TResolve "core/user" "getCapabilities" [];
              Tracker.TInvalidate k;
              Tracker.TResolve "core/user" "getCapabilities" []] in
  Tracker.t_runs (fst r) k = S (Tracker.t_runs t k)
  /\ exists p,
       Tracker.t_status (fst r) k = Tracker.IN_FLIGHT p
       /\ (forall h, In (k, h) (snd r) -> h = p)
       /\ (forall o, Tracker.t_settled (Tracker.complete (fst r) k o) p = Some o).
Proof.
  apply (resolve_at_most_once_in_flight
           (Tracker.empty_tracker (fun _ _ => true)) "core/user"
           "getCapabilities" []); reflexivity.
Defined.

(** C7: when the resolver run for a key fails, the key goes back to
    NOT_STARTED (not FINISHED), the promise of the triggering caller is
    rejected with the error, and the next [resolve] for the key starts the
    resolver again on a new promise. *)
Theorem resolve_failure_allows_retry (t : Tracker.tracker)
  (storeKey selectorName : string) (args : list jsval) (e : jsval) :
  Tracker.t_has_resolver t storeKey selectorName = true ->
  Tracker.t_status t (Tracker.resolution_key storeKey selectorName args)
    = Tracker.NOT_STARTED ->
  let k := Tracker.resolution_key storeKey selectorName args in
  let r1 := Tracker.resolve t storeKey selectorName args in
  let t2 := Tracker.complete (fst r1) k (Tracker.Rejected e) in
  let r3 := Tracker.resolve t2 storeKey selectorName args in
  Tracker.t_status t2 k = Tracker.NOT_STARTED
  /\ Tracker.t_settled t2 (snd r1) = Some (Tracker.Rejected e)
  /\ Tracker.t_runs (fst r3) k = S (S (Tracker.t_runs t k))
  /\ Tracker.t_status (fst r3) k = Tracker.IN_FLIGHT (snd r3)
  /\ snd r3 <> snd r1.
Proof.
  intros Hr Hs k r1 t2 r3.
  assert (Hs2 : Tracker.t_status t2 k = Tracker.NOT_STARTED).
  { unfold t2, r1, Tracker.complete, Tracker.resolve. rewrite Hr, Hs. simpl.
    rewrite TrackerProofs.upd_eq. simpl. rewrite TrackerProofs.upd_eq.
    reflexivity. }
  assert (Hr2 : Tracker.t_has_resolver t2 storeKey selectorName = true).
  { unfold t2, r1, Tracker.complete, Tracker.resolve. rewrite Hr, Hs. simpl.
    rewrite TrackerProofs.upd_eq. exact Hr. }
  split; [exact Hs2|].
  split.
  { unfold t2, r1, Tracker.complete, Tracker.resolve. rewrite Hr, Hs. simpl.
    rewrite TrackerProofs.upd_eq. simpl. apply TrackerProofs.upd_nat_eq. }
  unfold r3, Tracker.resolve. fold k. rewrite Hr2, Hs2. simpl.
  rewrite !TrackerProofs.upd_eq.
  unfold t2, r1, Tracker.complete, Tracker.resolve. rewrite Hr, Hs. simpl.
  rewrite TrackerProofs.upd_eq. simpl. rewrite TrackerProofs.upd_eq.
  repeat split. lia.
Qed.

Lemma resolve_failure_allows_retry_witness :
  let t := Tracker.empty_tracker (fun _ _ => true) in
  let k := Tracker.resolution_key "core/user" "getCapabilities" [] in
  let r1 := Tracker.resolve t "core/user" "getCapabilities" [] in
  let t2 := Tracker.complete (fst r1) k (Tracker.Rejected (JStr "fetch_error")) in
  let r3 := Tracker.resolve t2 "core/user" "getCapabilities" [] in
  Tracker.t_status t2 k = Tracker.NOT_STARTED
  /\ Tracker.t_settled t2 (snd r1) = Some (Tracker.Rejected (JStr "fetch_error"))
  /\ Tracker.t_runs (fst r3) k = S (S (Tracker.t_runs t k))
  /\ Tracker.t_status (fst r3) k = Tracker.IN_FLIGHT (snd r3)
  /\ snd r3 <> snd r1.
Proof.
  apply (resolve_failure_allows_retry
           (Tracker.empty_tracker (fun _ _ => true)) "core/user"
           "getCapabilities" [] (JStr "fetch_error")); reflexivity.
Defined.

(** ** Fetch stores *)

Module FetchStoreProofs.

Import FetchStore.

Lemma pending_key_app_fresh (pending : list (nat * string)) (h : nat)
  (key : string) :
  forallb (fun m => Nat.ltb (fst m) h) pending = true ->
  pending_key (pending ++ [(h, key)]) h = Some key.
Proof.
  induction pending as [|[h' k'] r IH]; simpl; intros H.
  - rewrite Nat.eqb_refl. reflexivity.
  - apply andb_prop in H as [H1 H2]. apply Nat.ltb_lt in H1.
    replace (Nat.eqb h h') with false by (symmetry; apply Nat.eqb_neq; lia).
    auto.
Qed.

Lemma supd_eq {A} (f : string -> A) (k : string) (x : A) : supd f k x k = x.
Proof. unfold supd. rewrite String.eqb_refl. reflexivity. Qed.

Lemma nupd_eq {A} (f : nat -> A) (n : nat) (x : A) : nupd f n x n = x.
Proof. unfold nupd. rewrite Nat.eqb_refl. reflexivity. Qed.

(** A valid dispatch calls [controlCallback] once and leaves the dispatch
    pending on it. *)
Lemma dispatch_fetch_valid (d : fetch_descriptor) (s : fetch_state)
  (args : list jsval) :
  validateParams d (argsToParams d args) = None ->
  let r := dispatch_fetch d s args in
  snd r = fs_next s
  /\ fs_calls (fst r) = (fs_calls s ++ [argsToParams d args])%list
  /\ fs_pending (fst r)
     = (fs_pending s ++ [(fs_next s, params_key (argsToParams d args))])%list
  /\ fs_isFetching (fst r) (params_key (argsToParams d args)) = true
  /\ fs_next (fst r) = S (fs_next s).
Proof.
  intros Hv. unfold dispatch_fetch. rewrite Hv. simpl.
  repeat split. apply supd_eq.
Qed.

End FetchStoreProofs.

(** C3: a dispatch whose params make [validateParams] throw calls
    [controlCallback] zero times (no call recorded, nothing pending) and its
    promise is rejected with the validation error. *)
Theorem fetch_validation_precedes_network (d : FetchStore.fetch_descriptor)
  (s : FetchStore.fetch_state) (args : list jsval) (err : jsval) :
  FetchStore.validateParams d (FetchStore.argsToParams d args) = Some err ->
  let r := FetchStore.dispatch_fetch d s args in
  FetchStore.fs_calls (fst r) = FetchStore.fs_calls s
  /\ FetchStore.fs_pending (fst r) = FetchStore.fs_pending s
  /\ FetchStore.fs_results (fst r) (snd r)
     = Some (FetchStore.DispatchRejected err).
Proof.
  intros Hv. unfold FetchStore.dispatch_fetch. rewrite Hv. simpl.
  repeat split. apply FetchStoreProofs.nupd_eq.
Qed.

Lemma fetch_validation_precedes_network_witness :
  let d := FetchStore.syncAvailableCustomDimensions
             FetchStore.validatePropertyID in
  let r := FetchStore.dispatch_fetch d FetchStore.empty_fetch_state [JStr "G-1"] in
  FetchStore.fs_calls (fst r) = []
  /\ FetchStore.fs_pending (fst r) = []
  /\ FetchStore.fs_results (fst r) (snd r)
     = Some (FetchStore.DispatchRejected
               (JStr "A valid GA4 propertyID is required.")).
Proof.
  apply (fetch_validation_precedes_network
           (FetchStore.syncAvailableCustomDimensions
              FetchStore.validatePropertyID)
           FetchStore.empty_fetch_state [JStr "G-1"]).
  reflexivity.
Defined.

(** C4 (counterexample): with the first dispatch for propertyID "123" still
    in flight ([isFetching] is true for its key), a second dispatch with the
    same params calls [controlCallback] a second time. *)
Lemma fetch_in_flight_second_call_counterexample :
  let d := FetchStore.syncAvailableCustomDimensions
             FetchStore.validatePropertyID in
  let s1 := fst (FetchStore.dispatch_fetch d FetchStore.empty_fetch_state
                   [JStr "123"]) in
  let s2 := fst (FetchStore.dispatch_fetch d s1 [JStr "123"]) in
  FetchStore.fs_isFetching s1
    (FetchStore.params_key (JObj [("propertyID", JStr "123")])) = true
  /\ length (FetchStore.fs_calls s1) = 1
  /\ length (FetchStore.fs_calls s2) = 2.
Proof. vm_compute. repeat split. Qed.

(** C4 (amended): every dispatch whose params pass [validateParams] calls
    [controlCallback] once more, also while [isFetching] is already true for
    the same serialized params; the fetch action has no in-flight guard. *)
Theorem fetch_dispatch_calls_even_in_flight (d : FetchStore.fetch_descriptor)
  (s : FetchStore.fetch_state) (args : list jsval) :
  FetchStore.validateParams d (FetchStore.argsToParams d args) = None ->
  FetchStore.fs_isFetching s
    (FetchStore.params_key (FetchStore.argsToParams d args)) = true ->
  FetchStore.fs_calls (fst (FetchStore.dispatch_fetch d s args))
  = (FetchStore.fs_calls s ++ [FetchStore.argsToParams d args])%list.
Proof.
  intros Hv _.
  apply (FetchStoreProofs.dispatch_fetch_valid d s args Hv).
Qed.

Lemma fetch_dispatch_calls_even_in_flight_witness :
  let d := FetchStore.syncAvailableCustomDimensions
             FetchStore.validatePropertyID in
  let s1 := fst (FetchStore.dispatch_fetch d FetchStore.empty_fetch_state
                   [JStr "123"]) in
  FetchStore.fs_calls (fst (FetchStore.dispatch_fetch d s1 [JStr "123"]))
  = (FetchStore.fs_calls s1 ++ [JObj [("propertyID", JStr "123")]])%list.
Proof.
  apply (fetch_dispatch_calls_even_in_flight
           (FetchStore.syncAvailableCustomDimensions
              FetchStore.validatePropertyID)
           (fst (FetchStore.dispatch_fetch
                   (FetchStore.syncAvailableCustomDimensions
                      FetchStore.validatePropertyID)
                   FetchStore.empty_fetch_state [JStr "123"]))
           [JStr "123"]); vm_compute; reflexivity.
Defined.

(** C2 (counterexample): the request of a valid fetch dispatch fails with
    the error of idea-state.test.js; the dispatch promise is resolved with
    [{ response: undefined, error }] and is not rejected. *)
Lemma fetch_error_not_rejected_counterexample :
  let d := FetchStore.syncAvailableCustomDimensions
             FetchStore.validatePropertyID in
  let errorResponse :=
    JObj [("code", JStr "internal_server_error");
          ("message", JStr "Internal server error");
          ("data", JObj [("status", JNum 500)])] in
  let r := FetchStore.dispatch_fetch d FetchStore.empty_fetch_state
             [JStr "123"] in
  let s2 := FetchStore.settle_fetch (fst r) (snd r)
              (FetchStore.NetRejected errorResponse) in
  FetchStore.fs_results s2 (snd r)
    = Some (FetchStore.DispatchResolved None (Some errorResponse))
  /\ ~ exists e, FetchStore.fs_results s2 (snd r)
                 = Some (FetchStore.DispatchRejected e).
Proof.
  vm_compute. split; [reflexivity|].
  intros [e H]. discriminate H.
Qed.

(** C2 (amended): when [controlCallback] rejects for a valid dispatch, the
    error is not swallowed: it is stored under [error[key]], [isFetching[key]]
    is cleared, and the dispatch promise resolves with
    [{ response: undefined, error }] rather than being rejected. *)
Theorem fetch_error_stored_and_returned (d : FetchStore.fetch_descriptor)
  (s : FetchStore.fetch_state) (args : list jsval) (e : jsval) :
  FetchStore.wf_pending s = true ->
  FetchStore.validateParams d (FetchStore.argsToParams d args) = None ->
  let key := FetchStore.params_key (FetchStore.argsToParams d args) in
  let r := FetchStore.dispatch_fetch d s args in
  let s2 := FetchStore.settle_fetch (fst r) (snd r) (FetchStore.NetRejected e) in
  FetchStore.fs_results s2 (snd r)
    = Some (FetchStore.DispatchResolved None (Some e))
  /\ FetchStore.fs_error s2 key = Some e
  /\ FetchStore.fs_isFetching s2 key = false.
Proof.
  intros Hwf Hv key r s2.
  destruct (FetchStoreProofs.dispatch_fetch_valid d s args Hv)
    as [Hh [_ [Hp _]]].
  fold r in Hh, Hp. fold key in Hp.
  unfold s2, FetchStore.settle_fetch.
  rewrite Hp, Hh, FetchStoreProofs.pending_key_app_fresh by exact Hwf.
  simpl. repeat split; apply FetchStoreProofs.supd_eq
                     || apply FetchStoreProofs.nupd_eq.
Qed.

Lemma fetch_error_stored_and_returned_witness :
  let d := FetchStore.syncAvailableCustomDimensions
             FetchStore.validatePropertyID in
  let e := JObj [("code", JStr "internal_server_error")] in
  let key := FetchStore.params_key (JObj [("propertyID", JStr "123")]) in
  let r := FetchStore.dispatch_fetch d FetchStore.empty_fetch_state [JStr "123"] in
  let s2 := FetchStore.settle_fetch (fst r) (snd r) (FetchStore.NetRejected e) in
  FetchStore.fs_results s2 (snd r)
    = Some (FetchStore.DispatchResolved None (Some e))
  /\ FetchStore.fs_error s2 key = Some e
  /\ FetchStore.fs_isFetching s2 key = false.
Proof.
  apply (fetch_error_stored_and_returned
           (FetchStore.syncAvailableCustomDimensions
              FetchStore.validatePropertyID)
           FetchStore.empty_fetch_state [JStr "123"]
           (JObj [("code", JStr "internal_server_error")]));
    reflexivity.
Defined.

(** ** Store Combinator *)

Module CombineProofs.

Import Combine.

Lemma merge_field_ok {A} (f : field) (m1 m2 m : list (string * A)) :
  merge_field f m1 m2 = Ok m -> map fst m = (map fst m1 ++ map fst m2)%list.
Proof.
  unfold merge_field.
  destruct (List.find _ _); [discriminate|].
  intros H. injection H as <-. apply map_app.
Qed.

Lemma merge_field_collision {A} (f : field) (m1 m2 : list (string * A))
  (k : string) :
  In k (map fst m1) -> In k (map fst m2) ->
  exists k', merge_field f m1 m2 = Err (KeyCollisionError f k').
Proof.
  intros H1 H2. unfold merge_field.
  destruct (List.find _ _) as [k'|] eqn:E; [eauto|].
  exfalso. apply (List.find_none _ _ E) in H2.
  assert (List.existsb (String.eqb k) (map fst m1) = true) as H3.
  { apply existsb_exists. exists k. split; auto. apply String.eqb_refl. }
  congruence.
Qed.

Ltac merge_step :=
  match goal with
  | |- context [merge_field ?f ?a ?b] =>
      let E := fresh "E" in
      destruct (merge_field f a b) eqn:E; simpl; [|discriminate]
  end.

Lemma merge_ok_keys (acc p acc' : partial_store) :
  merge acc p = Ok acc' ->
  forall f, field_keys f acc' = (field_keys f acc ++ field_keys f p)%list.
Proof.
  unfold merge, bind.
  repeat merge_step.
  intros H. injection H as <-.
  intros f; destruct f; simpl; eapply merge_field_ok; eassumption.
Qed.

Lemma merge_field_ok_disjoint {A} (f : field) (m1 m2 m : list (string * A))
  (k : string) :
  merge_field f m1 m2 = Ok m -> In k (map fst m1) -> ~ In k (map fst m2).
Proof.
  intros H H1 H2.
  destruct (merge_field_collision f m1 m2 k H1 H2) as [k' E]. congruence.
Qed.

Lemma merge_ok_disjoint (acc p acc' : partial_store) :
  merge acc p = Ok acc' ->
  forall f k, In k (field_keys f acc) -> ~ In k (field_keys f p).
Proof.
  unfold merge, bind.
  repeat merge_step.
  intros _ f k; destruct f; simpl; eapply merge_field_ok_disjoint; eassumption.
Qed.

Lemma merge_collision (acc p : partial_store) (f : field) (k : string) :
  In k (field_keys f acc) -> In k (field_keys f p) ->
  exists e, merge acc p = Err e.
Proof.
  intros H1 H2. destruct (merge acc p) as [acc'|e] eqn:E; [|eauto].
  exfalso. exact (merge_ok_disjoint acc p acc' E f k H1 H2).
Qed.

Lemma combine_from_err (e : combine_error) (ps : list partial_store) :
  combine_from (Err e) ps = Err e.
Proof. induction ps; simpl; auto. Qed.

Lemma combine_from_app (acc : result partial_store) (l1 l2 : list partial_store) :
  combine_from acc (l1 ++ l2) = combine_from (combine_from acc l1) l2.
Proof. revert acc. induction l1; simpl; auto. Qed.

Lemma combine_from_collision (ps : list partial_store) :
  forall (acc q : partial_store) (f : field) (k : string),
    In k (field_keys f acc) -> In q ps -> In k (field_keys f q) ->
    exists e, combine_from (Ok acc) ps = Err e.
Proof.
  induction ps as [|p r IH]; intros acc q f k Hacc Hq Hk; [destruct Hq|].
  simpl. destruct (merge acc p) as [acc'|e] eqn:Em.
  - destruct Hq as [<-|Hq].
    + destruct (merge_collision acc p f k Hacc Hk) as [e He]. congruence.
    + apply (IH acc' q f k); auto.
      rewrite (merge_ok_keys acc p acc' Em f). apply in_or_app. auto.
  - exists e. apply combine_from_err.
Qed.

End CombineProofs.

(** C6: if two of the partials passed to [combine] share a top-level
    [initialState] key, a reducer case for the same action type, or a name in
    their actions, controls, selectors or resolvers, [combine] fails with a
    [KeyCollisionError] and returns no merged store. *)
Theorem combine_rejects_collisions (ps : list Combine.partial_store)
  (i j : nat) (p q : Combine.partial_store) (f : Combine.field) (k : string) :
  i < j ->
  nth_error ps i = Some p ->
  nth_error ps j = Some q ->
  In k (Combine.field_keys f p) ->
  In k (Combine.field_keys f q) ->
  exists f' k', Combine.combine ps = Combine.Err (Combine.KeyCollisionError f' k').
Proof.
  intros Hij Hi Hj Hp Hq.
  destruct (nth_error_split ps i Hi) as [l1 [l2 [Eps Hlen]]].
  assert (Hq2 : In q l2).
  { subst ps. rewrite nth_error_app2 in Hj by lia.
    replace (j - length l1) with (S (j - length l1 - 1)) in Hj by lia.
    simpl in Hj. eapply nth_error_In. exact Hj. }
  assert (He : exists e, Combine.combine ps = Combine.Err e).
  { unfold Combine.combine. subst ps. rewrite CombineProofs.combine_from_app.
    destruct (Combine.combine_from (Combine.Ok Combine.empty_partial) l1)
      as [acc|e]; simpl.
    - destruct (Combine.merge acc p) as [acc'|e] eqn:Em.
      + apply (CombineProofs.combine_from_collision l2 acc' q f k); auto.
        rewrite (CombineProofs.merge_ok_keys acc p acc' Em f).
        apply in_or_app. auto.
      + exists e. apply CombineProofs.combine_from_err.
    - exists e. apply CombineProofs.combine_from_err. }
  destruct He as [[f' k'] He]. eauto.
Qed.

Lemma combine_rejects_collisions_witness :
  let fetchA := Combine.mkPartial [("isFetchingSync", JObj [])]
                  [("START_FETCH_SYNC", 1)] [("fetchSync", 2)] [] [] [] in
  let fetchB := Combine.mkPartial [("isFetchingSync", JObj [])]
                  [("START_FETCH_CREATE", 3)] [("fetchCreate", 4)] [] [] [] in
  exists f' k', Combine.combine [fetchA; fetchB]
                = Combine.Err (Combine.KeyCollisionError f' k').
Proof.
  apply (combine_rejects_collisions _ 0 1
           (Combine.mkPartial [("isFetchingSync", JObj [])]
              [("START_FETCH_SYNC", 1)] [("fetchSync", 2)] [] [] [])
           (Combine.mkPartial [("isFetchingSync", JObj [])]
              [("START_FETCH_CREATE", 3)] [("fetchCreate", 4)] [] [] [])
           Combine.InitialState "isFetchingSync");
    simpl; auto.
Defined.

(** ** Effect Interpreter *)

(** C8: running a coroutine, the interpreter starts the handler of each
    yielded effect only after the handler of the previous one has completed
    and its result has been fed back (the log is start, completion, start,
    completion, ...); the effects are exactly those the coroutine yields, in
    its order, given the results fed back; the handlers act on the world one
    after the other in that order; and a finished run returns the value the
    coroutine returns after those resumptions. *)
Theorem interpreter_sequential_in_order (W : Type)
  (control : W -> Interpreter.effect -> W * Tracker.outcome)
  (fuel : nat) (w : W) (c : Interpreter.coroutine) :
  match Interpreter.run W control fuel w c with
  | (w', log, res) =>
      exists steps,
        log = Interpreter.log_of steps
        /\ map fst steps = Interpreter.replay c (map snd steps)
        /\ Interpreter.handled_in_order W control w steps w'
        /\ (forall r, res = Some r ->
              Interpreter.resume c (map snd steps) = Interpreter.Return r)
  end.
Proof.
  revert w c. induction fuel as [|f IH]; intros w c; simpl.
  - exists []. split; [reflexivity|]. split; [reflexivity|].
    split; [constructor | discriminate].
  - destruct c as [r|e k].
    + exists []. split; [reflexivity|]. split; [reflexivity|].
      split; [constructor|].
      intros r' H. injection H as ->. reflexivity.
    + destruct (Interpreter.handle W control w e) as [w1 o] eqn:Eh.
      specialize (IH w1 (k o)).
      destruct (Interpreter.run W control f w1 (k o)) as [[w2 log] res].
      destruct IH as [steps [Hlog [Hrep [Hio Hres]]]].
      exists ((e, o) :: steps). simpl. repeat split.
      * rewrite Hlog. reflexivity.
      * rewrite Hrep. reflexivity.
      * econstructor; eassumption.
      * exact Hres.
Qed.

(** ** core/ui store: composition of its actions *)

Module CoreUIProofs.

Lemma own_lookup_app (l1 l2 : jsobj) (k : string) :
  own_lookup (l1 ++ l2)%list k
  = match own_lookup l1 k with Some v => Some v | None => own_lookup l2 k end.
Proof.
  induction l1 as [|[k' v'] r IH]; simpl; [reflexivity|].
  destruct (String.eqb k k'); [reflexivity | exact IH].
Qed.

Lemma own_lookup_None_notin (l : jsobj) (k : string) :
  own_lookup l k = None <-> ~ In k (map fst l).
Proof.
  induction l as [|[k' v'] r IH]; simpl; [tauto|].
  destruct (String.eqb k k') eqn:E.
  - apply String.eqb_eq in E. subst k'. split; [discriminate | tauto].
  - apply String.eqb_neq in E. rewrite IH. split.
    + intros H [H'|H']; [congruence | contradiction].
    + tauto.
Qed.

Lemma own_lookup_rev (l : jsobj) (k : string) :
  NoDup (map fst l) -> own_lookup (rev l) k = own_lookup l k.
Proof.
  induction l as [|[k' v'] r IH]; simpl; intros Hnd; [reflexivity|].
  inversion Hnd as [|? ? Hnin Hnd']; subst.
  rewrite own_lookup_app, IH by exact Hnd'. simpl.
  destruct (String.eqb k k') eqn:E.
  - apply String.eqb_eq in E. subst k'.
    apply own_lookup_None_notin in Hnin. rewrite Hnin. reflexivity.
  - destruct (own_lookup r k); reflexivity.
Qed.

Lemma own_lookup_spread (a b : jsobj) (k : string) :
  own_lookup (spread a b) k
  = match own_lookup (rev b) k with Some v => Some v | None => own_lookup a k end.
Proof.
  revert a. induction b as [|[k' v'] r IH]; intros a; simpl; [reflexivity|].
  unfold spread in IH |- *. simpl. rewrite IH, own_lookup_app. simpl.
  destruct (own_lookup (rev r) k); [reflexivity|].
  destruct (String.eqb k k') eqn:E.
  - apply String.eqb_eq in E. subst k'. apply own_lookup_define_same.
  - apply String.eqb_neq in E. apply own_lookup_define_other. exact E.
Qed.

Lemma setValue_reducer (state : jsobj) (key : string) (value : jsval)
  (a : CoreUI.action) :
  CoreUI.setValue key value = Some a ->
  CoreUI.reducer state a = define_prop state key value.
Proof.
  unfold CoreUI.setValue. destruct (truthy_key key); [|discriminate].
  intros H. injection H as <-. reflexivity.
Qed.

Lemma define_prop_twice (o : jsobj) (k : string) (v1 v2 : jsval) :
  define_prop (define_prop o k v1) k v2 = define_prop o k v2.
Proof.
  induction o as [|[k' v'] r IH]; simpl.
  - rewrite String.eqb_refl. reflexivity.
  - destruct (String.eqb k k') eqn:E; simpl; rewrite E; [reflexivity|].
    rewrite IH. reflexivity.
Qed.

(** [setValues( values )] then [getValue]: a key of [values] reads its new
    value, any other key reads what it read before. *)
Theorem core_ui_set_values_read (state values : jsobj) (a : CoreUI.action)
  (k : string) :
  NoDup (map fst values) ->
  CoreUI.setValues values = Some a ->
  CoreUI.getValue (CoreUI.reducer state a) k
  = match own_lookup values k with
    | Some v => v
    | None => CoreUI.getValue state k
    end.
Proof.
  intros Hnd Ha. injection Ha as <-.
  unfold CoreUI.reducer, CoreUI.getValue, obj_get. simpl.
  rewrite own_lookup_spread, own_lookup_rev by exact Hnd.
  destruct (own_lookup values k); reflexivity.
Qed.

Lemma core_ui_set_values_read_witness :
  CoreUI.getValue (CoreUI.reducer CoreUI.initialState
    (CoreUI.mkAction CoreUI.SET_VALUES
       (CoreUI.mkPayload (Some [("isOnline", JBool false); ("a", JNum 1)])
          None JUndefined))) "isOnline" = JBool false.
Proof.
  apply (core_ui_set_values_read CoreUI.initialState
           [("isOnline", JBool false); ("a", JNum 1)]); [|reflexivity].
  repeat constructor; simpl; intuition discriminate.
Defined.

(** Two [setValue] actions on the same key leave the state the second one
    alone would leave: the last value wins and the key keeps its place. *)
Theorem core_ui_set_value_last_wins (state : jsobj) (key : string)
  (v1 v2 : jsval) (a1 a2 : CoreUI.action) :
  CoreUI.setValue key v1 = Some a1 ->
  CoreUI.setValue key v2 = Some a2 ->
  CoreUI.reducer (CoreUI.reducer state a1) a2 = CoreUI.reducer state a2.
Proof.
  intros H1 H2.
  rewrite (setValue_reducer _ _ _ _ H1), !(setValue_reducer _ _ _ _ H2).
  apply define_prop_twice.
Qed.

Lemma core_ui_set_value_last_wins_witness :
  CoreUI.reducer (CoreUI.reducer CoreUI.initialState
      (CoreUI.mkAction CoreUI.SET_VALUE
         (CoreUI.mkPayload None (Some "k") (JNum 1))))
    (CoreUI.mkAction CoreUI.SET_VALUE (CoreUI.mkPayload None (Some "k") (JNum 2)))
  = CoreUI.reducer CoreUI.initialState
      (CoreUI.mkAction CoreUI.SET_VALUE (CoreUI.mkPayload None (Some "k") (JNum 2))).
Proof.
  apply (core_ui_set_value_last_wins CoreUI.initialState "k" (JNum 1) (JNum 2));
    reflexivity.
Defined.

(** [setValue] actions on two different keys commute: every key reads the
    same whichever is dispatched first. *)
Theorem core_ui_set_value_commute (state : jsobj) (k1 k2 : string)
  (v1 v2 : jsval) (a1 a2 : CoreUI.action) (k : string) :
  k1 <> k2 ->
  CoreUI.setValue k1 v1 = Some a1 ->
  CoreUI.setValue k2 v2 = Some a2 ->
  CoreUI.getValue (CoreUI.reducer (CoreUI.reducer state a1) a2) k
  = CoreUI.getValue (CoreUI.reducer (CoreUI.reducer state a2) a1) k.
Proof.
  intros Hne H1 H2. unfold CoreUI.getValue.
  rewrite !(setValue_reducer _ _ _ _ H1), !(setValue_reducer _ _ _ _ H2).
  destruct (String.eqb k k1) eqn:E1; [apply String.eqb_eq in E1; subst k|].
  - rewrite obj_get_define_same, obj_get_define_other by exact Hne.
    rewrite obj_get_define_same. reflexivity.
  - apply String.eqb_neq in E1.
    destruct (String.eqb k k2) eqn:E2; [apply String.eqb_eq in E2; subst k|].
    + rewrite obj_get_define_same, obj_get_define_other by exact E1.
      rewrite obj_get_define_same. reflexivity.
    + apply String.eqb_neq in E2.
      rewrite !obj_get_define_other by assumption. reflexivity.
Qed.

Lemma core_ui_set_value_commute_witness :
  CoreUI.getValue (CoreUI.reducer (CoreUI.reducer CoreUI.initialState
      (CoreUI.mkAction CoreUI.SET_VALUE (CoreUI.mkPayload None (Some "a") (JNum 1))))
      (CoreUI.mkAction CoreUI.SET_VALUE (CoreUI.mkPayload None (Some "b") (JNum 2)))) "a"
  = CoreUI.getValue (CoreUI.reducer (CoreUI.reducer CoreUI.initialState
      (CoreUI.mkAction CoreUI.SET_VALUE (CoreUI.mkPayload None (Some "b") (JNum 2))))
      (CoreUI.mkAction CoreUI.SET_VALUE (CoreUI.mkPayload None (Some "a") (JNum 1)))) "a".
Proof.
  apply (core_ui_set_value_commute CoreUI.initialState "a" "b" (JNum 1) (JNum 2));
    [discriminate | reflexivity | reflexivity].
Defined.



End CoreUIProofs.

(** ** The SpinnerButton component *)

Module SpinnerButtonProofs.
Import SpinnerButton.

Definition spinner_shown (b : button_props) : Prop :=
  b_icon b <> None \/ b_trailingIcon b <> None.

(** Without caller-supplied [icon] / [trailingIcon], a spinner is rendered
    exactly while [isSaving] is true, on the left exactly when
    [spinnerOnLeft] is also true, and never on both sides. *)
Theorem spinner_button_icon_placement (p : props) :
  rest_icon p = None -> rest_trailingIcon p = None ->
  (spinner_shown (render p) <-> default_bool (isSaving p) = true)
  /\ (b_icon (render p) <> None
      <-> default_bool (isSaving p) = true
          /\ default_bool (spinnerOnLeft p) = true)
  /\ (b_icon (render p) = None \/ b_trailingIcon (render p) = None).
Proof.
  intros Hi Ht. unfold spinner_shown, render. rewrite Hi, Ht. simpl.
  destruct (default_bool (isSaving p)), (default_bool (spinnerOnLeft p));
    simpl; intuition (try discriminate; try congruence).
Qed.

Lemma spinner_button_icon_placement_witness :
  let p := mkProps None None (Some true) None None None in
  (spinner_shown (render p) <-> default_bool (isSaving p) = true)
  /\ (b_icon (render p) <> None
      <-> default_bool (isSaving p) = true
          /\ default_bool (spinnerOnLeft p) = true)
  /\ (b_icon (render p) = None \/ b_trailingIcon (render p) = None).
Proof.
  intros p. apply spinner_button_icon_placement; reflexivity.
Defined.





End SpinnerButtonProofs.

(** ** The custom-dimensions store *)

Module CustomDimensionsProofs.
Import CustomDimensions.

Lemma existsb_eqb_In (x : string) (l : list string) :
  existsb (String.eqb x) l = true <-> In x l.
Proof.
  rewrite existsb_exists. split.
  - intros [y [Hy E]]. apply String.eqb_eq in E. subst. exact Hy.
  - intros H. exists x. split; [exact H | apply String.eqb_refl].
Qed.

Lemma dimensions_to_check_In (available : list string) (customDimensions : jsval) :
  hasCustomDimensions (Some available) customDimensions = true
  <-> (forall d, In d (match customDimensions with JArr l => l | v => [v] end) ->
        exists s, d = JStr s /\ In s available).
Proof.
  unfold hasCustomDimensions. rewrite forallb_forall.
  split; intros H d Hd; specialize (H d Hd).
  - destruct d; try discriminate. exists s. split; [reflexivity|].
    apply existsb_eqb_In. exact H.
  - destruct H as [s [-> Hs]]. apply existsb_eqb_In. exact Hs.
Qed.

(** [hasCustomDimensions] is true exactly when the available dimensions are
    loaded (not [null] / [undefined]) and every requested dimension is one
    of them; a single name is checked as the one-element array. *)
Theorem has_custom_dimensions_spec (available : option (list string))
  (names : list string) (single : string) :
  (hasCustomDimensions available (JArr (map JStr names)) = true
   <-> exists av, available = Some av /\ incl names av)
  /\ hasCustomDimensions available (JStr single)
     = hasCustomDimensions available (JArr [JStr single]).
Proof.
  split; [|reflexivity].
  destruct available as [av|].
  - rewrite dimensions_to_check_In. split.
    + intros H. exists av. split; [reflexivity|].
      intros n Hn. destruct (H (JStr n)) as [s [E Hs]].
      { apply in_map. exact Hn. }
      injection E as <-. exact Hs.
    + intros [av' [E Hincl]] d Hd. injection E as <-.
      apply in_map_iff in Hd. destruct Hd as [n [<- Hn]].
      exists n. split; [reflexivity | apply Hincl; exact Hn].
  - simpl. split; [discriminate|]. intros [av [E _]]. discriminate.
Qed.

(** Once [hasCustomDimensions] holds, it keeps holding when more
    dimensions become available. *)
Theorem has_custom_dimensions_monotone (av av' : list string)
  (customDimensions : jsval) :
  incl av av' ->
  hasCustomDimensions (Some av) customDimensions = true ->
  hasCustomDimensions (Some av') customDimensions = true.
Proof.
  intros Hincl. rewrite !dimensions_to_check_In.
  intros H d Hd. destruct (H d Hd) as [s [E Hs]].
  exists s. split; [exact E | apply Hincl; exact Hs].
Qed.

Lemma has_custom_dimensions_monotone_witness :
  hasCustomDimensions (Some ["a"; "b"]) (JStr "a") = true.
Proof.
  apply (has_custom_dimensions_monotone ["a"] ["a"; "b"]); [|reflexivity].
  intros x [<-|[]]. left. reflexivity.
Defined.

Lemma check_keys_None (keys : list string) :
  check_keys keys = None <-> (forall k, In k keys -> In k customDimensionFields).
Proof.
  induction keys as [|k r IH]; cbn [check_keys].
  - simpl. split; [tauto | reflexivity].
  - destruct (existsb (String.eqb k) customDimensionFields) eqn:E.
    + apply existsb_eqb_In in E. rewrite IH. split.
      * intros H k' [<-|Hk']; [exact E | apply H; exact Hk'].
      * intros H k' Hk'. apply H. right. exact Hk'.
    + split; [discriminate|]. intros H.
      assert (Hk : In k customDimensionFields) by (apply H; left; reflexivity).
      apply existsb_eqb_In in Hk. congruence.
Qed.


(** [validateParams] of createCustomDimension accepts the parameters built
    by [argsToParams( propertyID, customDimension )] exactly when the
    property ID is valid and the custom dimension is a plain object whose
    keys all belong to [customDimensionFields]. *)
Theorem create_custom_dimension_valid_iff (isValidPropertyID : jsval -> bool)
  (propertyID customDimension : jsval) :
  validateCreateCustomDimension isValidPropertyID
    (createCustomDimension_params propertyID customDimension) = None
  <-> isValidPropertyID propertyID = true
      /\ exists ps, customDimension = JObj ps
         /\ forall k, In k (map fst ps) -> In k customDimensionFields.
Proof.
  unfold validateCreateCustomDimension, createCustomDimension_params.
  cbn [obj_get own_lookup String.eqb Ascii.eqb Bool.eqb].
  unfold obj_get. simpl.
  destruct (isValidPropertyID propertyID); simpl.
  - destruct customDimension; simpl;
      try (split; [discriminate | intros [_ [ps [E _]]]; discriminate]).
    rewrite check_keys_None. split.
    + intros H. split; [reflexivity|]. exists props. split; [reflexivity | exact H].
    + intros [_ [ps [E H]]]. injection E as <-. exact H.
  - split; [discriminate | intros [E _]; discriminate].
Qed.







End CustomDimensionsProofs.
